(** * WebRToSIP orchestrator: the call-session lifecycle of [orchestrator.js]

    The orchestrator is an Express application with two webhook handlers,
    [POST /wa/calling/connect] and [POST /wa/calling/terminate], sharing one
    in-memory [Map] ([activeCalls]) from the WhatsApp call id to the edge
    session.  Each handler is an [async] function: it runs synchronously
    up to an [await] on a remote call ([axios.post]), is suspended there,
    and is resumed with the settled promise.

    The embedding follows that structure:
    - JavaScript values read by the handlers ([jsval], truthiness,
      template-literal rendering);
    - the remote requests, as [axios.post] receives them;
    - handler bodies as trees of effects ([prog]): log lines, [Map]
      operations, HTTP responses, awaited requests, [throw]/[try]/[catch];
    - the functions of the source ([callWaba], [preAccept], [accept],
      [terminate], the two handlers), written in that monad;
    - two readings of a handler: the run of one flow against the replies
      its requests receive ([run]), and the event loop interleaving any
      number of flows over the shared registry ([step]). *)

From stdpp Require Import base option list strings gmap.

Local Open Scope string_scope.
Local Open Scope list_scope.

(** ** JavaScript values

    The fields the handlers read ([call_id], [session.sdp],
    [edge_session_id], [sdp_answer]) are strings in the source's own
    description of the webhook body and in its JSDoc ([@param {string}
    callId], [@param {string} sdpAnswer]); a field absent from the JSON
    object reads as [undefined].  [None] is [undefined]. *)

Abbreviation jsval := (option string).
Abbreviation undefined := (@None string).

(** [!v] is [negb (truthy v)]: [undefined] and the empty string are falsy. *)
Definition truthy (v : jsval) : bool :=
  match v with
  | Some (String _ _) => true
  | Some EmptyString => false
  | None => false
  end.

(** [`${v}`] inside a template literal. *)
Definition render (v : jsval) : string :=
  match v with
  | Some s => s
  | None => "undefined"
  end.

(** The object stored in [activeCalls]: [{ edgeSessionId }]. *)
Record call_state := { edgeSessionId : jsval }.

(** [const activeCalls = new Map()].  A callId is a [Map] key as a value:
    [undefined] is a possible key of a JavaScript [Map]. *)
Abbreviation registry := (gmap jsval call_state).

(** [req.body] of the connect webhook, parsed by [express.json] (an
    object, [{}] when the request carries none):
    [{ call_id, session: { sdp, sdp_type } }].  [session] is [None] when
    the field is absent; a [session] that is no object has no [sdp] and
    reads as an object without one. *)
Record session_obj := { sdp : jsval }.
Record connect_body := { call_id : jsval; session : option session_obj }.

(** [req.body] of the terminate webhook: [{ call_id }]. *)
Record terminate_body := { t_call_id : jsval }.

(** [resp.data] of the edge's answer to [/webrtc/new].  A body that is no
    object has neither field. *)
Record edge_data := { edge_session_id : jsval; sdp_answer : jsval }.

(** ** Remote requests and their replies *)

(** One [axios.post(url, payload, { headers })]. *)
Record request := {
  url : string;
  payload : list (string * jsval);
  headers : list (string * string)
}.

(** What the awaited promise settles to: a response (of which only [data]
    is read) or a rejection (network error, non-2xx status). *)
Inductive reply :=
| Resolved (data : edge_data)
| Rejected (err : string).

Inductive level := Debug | Info | Warn | Error | Fatal.

(** What a handler does, as seen from outside: calls to the logger (the
    object bound to the line is left out), requests sent, requests
    settled, answers to the webhook's caller. *)
Inductive event :=
| Logged (l : level) (msg : string)
| Posted (r : request)
| Settled (rep : reply)
| Responded (status : N) (body : string).

#[global] Instance jsval_pair_eq_dec : EqDecision (string * jsval).
Proof. solve_decision. Defined.
#[global] Instance request_eq_dec : EqDecision request.
Proof. solve_decision. Defined.
#[global] Instance call_state_eq_dec : EqDecision call_state.
Proof. solve_decision. Defined.
#[global] Instance edge_data_eq_dec : EqDecision edge_data.
Proof. solve_decision. Defined.
#[global] Instance reply_eq_dec : EqDecision reply.
Proof. solve_decision. Defined.
#[global] Instance level_eq_dec : EqDecision level.
Proof. solve_decision. Defined.
#[global] Instance event_eq_dec : EqDecision event.
Proof. solve_decision. Defined.

(** ** Handler bodies as effect trees

    [Await r k] is [await axios.post(...)]: the handler is suspended until
    the request settles.  Everything else runs to the next [Await] without
    interruption (JavaScript's run-to-completion). *)

Inductive prog (A : Type) : Type :=
| Ret (a : A)
| Throw (err : string)
| Log (l : level) (msg : string) (k : prog A)
| MapGet (key : jsval) (k : option call_state → prog A)
| MapSet (key : jsval) (v : call_state) (k : prog A)
| MapDelete (key : jsval) (k : prog A)
| Send (status : N) (body : string) (k : prog A)
| Await (r : request) (k : reply → prog A).

Arguments Ret {A} a.
Arguments Throw {A} err.
Arguments Log {A} l msg k.
Arguments MapGet {A} key k.
Arguments MapSet {A} key v k.
Arguments MapDelete {A} key k.
Arguments Send {A} status body k.
Arguments Await {A} r k.

Fixpoint bind {A B} (m : prog A) (f : A → prog B) : prog B :=
  match m with
  | Ret a => f a
  | Throw e => Throw e
  | Log l msg k => Log l msg (bind k f)
  | MapGet key k => MapGet key (λ o, bind (k o) f)
  | MapSet key v k => MapSet key v (bind k f)
  | MapDelete key k => MapDelete key (bind k f)
  | Send st body k => Send st body (bind k f)
  | Await r k => Await r (λ rep, bind (k rep) f)
  end.

(** [try { m } catch (err) { h err }]. *)
Fixpoint try_catch {A} (m : prog A) (h : string → prog A) : prog A :=
  match m with
  | Ret a => Ret a
  | Throw e => h e
  | Log l msg k => Log l msg (try_catch k h)
  | MapGet key k => MapGet key (λ o, try_catch (k o) h)
  | MapSet key v k => MapSet key v (try_catch k h)
  | MapDelete key k => MapDelete key (try_catch k h)
  | Send st body k => Send st body (try_catch k h)
  | Await r k => Await r (λ rep, try_catch (k rep) h)
  end.

#[global] Instance prog_ret : MRet prog := λ A a, Ret a.
#[global] Instance prog_bind : MBind prog := λ A B f m, bind m f.

Definition log (l : level) (msg : string) : prog unit := Log l msg (Ret tt).
Definition map_get (key : jsval) : prog (option call_state) := MapGet key Ret.
Definition map_set (key : jsval) (v : call_state) : prog unit := MapSet key v (Ret tt).
Definition map_delete (key : jsval) : prog unit := MapDelete key (Ret tt).
Definition send (status : N) (body : string) : prog unit := Send status body (Ret tt).
(** [res.sendStatus(code)] sends the status with its reason phrase. *)
Definition sendStatus (status : N) : prog unit :=
  send status (match status with
               | 200%N => "OK"
               | 500%N => "Internal Server Error"
               | _ => ""
               end).
(** [await axios.post(url, payload, config)]: a rejection is thrown. *)
Definition post (r : request) : prog edge_data :=
  Await r (λ rep, match rep with
                  | Resolved d => Ret d
                  | Rejected e => Throw e
                  end).

(** ** One flow, run against the replies its requests receive

    [run p replies reg] executes [p] from registry [reg]; the n-th awaited
    request settles to the n-th reply.  When the replies run out the flow
    stays suspended on the request it has just issued. *)

Inductive completion (A : Type) : Type :=
| Returned (a : A)
| Uncaught (err : string)
| Suspended (r : request).

Arguments Returned {A} a.
Arguments Uncaught {A} err.
Arguments Suspended {A} r.

Record outcome (A : Type) : Type := {
  final : completion A;
  store : registry;
  trace : list event
}.

Arguments final {A} o.
Arguments store {A} o.
Arguments trace {A} o.

Definition emit {A} (e : event) (o : outcome A) : outcome A :=
  {| final := final o; store := store o; trace := e :: trace o |}.

Fixpoint run {A} (p : prog A) (replies : list reply) (reg : registry) : outcome A :=
  match p with
  | Ret a => {| final := Returned a; store := reg; trace := [] |}
  | Throw e => {| final := Uncaught e; store := reg; trace := [] |}
  | Log l msg k => emit (Logged l msg) (run k replies reg)
  | MapGet key k => run (k (reg !! key)) replies reg
  | MapSet key v k => run k replies (<[key := v]> reg)
  | MapDelete key k => run k replies (delete key reg)
  | Send st body k => emit (Responded st body) (run k replies reg)
  | Await r k =>
      match replies with
      | [] => {| final := Suspended r; store := reg; trace := [Posted r] |}
      | rep :: rest => emit (Posted r) (emit (Settled rep) (run (k rep) rest reg))
      end
  end.

(** The requests a trace issued, in order. *)
Definition requests (t : list event) : list request :=
  omap (λ e, match e with Posted r => Some r | _ => None end) t.

(** The responses a trace sent to the webhook's caller. *)
Definition responses (t : list event) : list N :=
  omap (λ e, match e with Responded st _ => Some st | _ => None end) t.

(** ** The functions of [orchestrator.js] *)

(** [session.sdp], read only where [session] is an object. *)
Definition session_sdp (s : option session_obj) : jsval := s ≫= sdp.

(** The connect handler's first test, [!callId || !session || !session.sdp]. *)
Definition malformed (body : connect_body) : bool :=
  negb (truthy (call_id body)) || negb (bool_decide (is_Some (session body)))
  || negb (truthy (session_sdp (session body))).

(** The connect handler's test on the answer of the edge,
    [!edgeSessionId || !sdpAnswer]. *)
Definition incomplete (d : edge_data) : bool :=
  negb (truthy (edge_session_id d)) || negb (truthy (sdp_answer d)).

Section Orchestrator.

(** [process.env]; the process exits at start-up unless the three
    without a default are set. *)
Variables (WABA_TOKEN WABA_BASE WABA_PHONE_ID EDGE_API : string).

(** The [axios.post] of [callWaba(path, payload)]. *)
Definition waba_request (path : string) (body : list (string * jsval)) : request :=
  {| url := WABA_BASE +:+ "/" +:+ WABA_PHONE_ID +:+ path;
     payload := body;
     headers := [("Authorization", "Bearer " +:+ WABA_TOKEN)] |}.

Definition callWaba (path : string) (body : list (string * jsval)) : prog edge_data :=
  log Debug "Calling WABA API" ;;
  post (waba_request path body).

Definition preAccept (callId sdpAnswer : jsval) : prog unit :=
  callWaba ("/calls/" +:+ render callId +:+ "/pre_accept")
           [("sdp", sdpAnswer); ("sdp_type", Some "answer")] ;;
  mret tt.

Definition accept (callId : jsval) : prog unit :=
  callWaba ("/calls/" +:+ render callId +:+ "/accept") [] ;;
  mret tt.

Definition terminate (callId : jsval) : prog unit :=
  try_catch
    (callWaba ("/calls/" +:+ render callId +:+ "/terminate") [] ;;
     mret tt)
    (λ err, log Warn "Failed to call terminate").

(** The two requests the handlers send to the edge themselves. *)
Definition negotiate_request (callId offer : jsval) : request :=
  {| url := EDGE_API +:+ "/webrtc/new";
     payload := [("call_id", callId); ("sdp_offer", offer)];
     headers := [] |}.

Definition hangup_request (eid : jsval) : request :=
  {| url := EDGE_API +:+ "/webrtc/hangup";
     payload := [("edge_session_id", eid)];
     headers := [] |}.

(** [app.post('/wa/calling/connect', async (req, res) => ...)]. *)
Definition connect_handler (body : connect_body) : prog unit :=
  let callId := call_id body in
  let offer := session_sdp (session body) in
  if malformed body
  then send 400 "Invalid payload"
  else
    log Info "Received connect webhook" ;;
    try_catch
      (resp ← post (negotiate_request callId offer);
       let eid := edge_session_id resp in
       let sdpAnswer := sdp_answer resp in
       (if incomplete resp
        then Throw "Edge did not return session_id or sdp_answer"
        else mret tt) ;;
       map_set callId {| edgeSessionId := eid |} ;;
       preAccept callId sdpAnswer ;;
       accept callId ;;
       sendStatus 200)
      (λ err, log Error "Error handling connect" ;; sendStatus 500).

(** [app.post('/wa/calling/terminate', async (req, res) => ...)]. *)
Definition terminate_handler (body : terminate_body) : prog unit :=
  let callId := t_call_id body in
  log Info "Received terminate webhook" ;;
  try_catch
    (state ← map_get callId;
     match state with
     | Some st =>
         if truthy (edgeSessionId st)
         then post (hangup_request (edgeSessionId st)) ;;
              map_delete callId
         else mret tt
     | None => mret tt
     end ;;
     terminate callId ;;
     sendStatus 200)
    (λ err, log Error "Error handling terminate" ;; sendStatus 500).

(** The requests of [preAccept], [accept] and [terminate], as [callWaba]
    posts them. *)
Definition preAccept_request (callId sdpAnswer : jsval) : request :=
  waba_request ("/calls/" +:+ render callId +:+ "/pre_accept")
               [("sdp", sdpAnswer); ("sdp_type", Some "answer")].

Definition accept_request (callId : jsval) : request :=
  waba_request ("/calls/" +:+ render callId +:+ "/accept") [].

Definition terminate_request (callId : jsval) : request :=
  waba_request ("/calls/" +:+ render callId +:+ "/terminate") [].

(** The requests of the orchestrator, told apart by what they carry. *)
Definition is_negotiate (r : request) : Prop :=
  ∃ callId offer, r = negotiate_request callId offer.
Definition is_preAccept (r : request) : Prop :=
  ∃ callId answer, r = preAccept_request callId answer.
Definition is_accept (r : request) : Prop :=
  ∃ callId, r = accept_request callId.
Definition is_hangup (r : request) : Prop :=
  ∃ eid, r = hangup_request eid.

End Orchestrator.

(** ** The event loop: any number of flows over the shared registry

    A webhook arrives and its handler runs up to its first [await]; a
    pending request settles and the handler waiting on it runs up to its
    next [await].  Nothing else touches [activeCalls].  (An [await] on a
    promise that is already settled also yields, but no segment between
    two awaits of a handler holds more than one [Map] operation, so the
    finer interleaving reaches the same registries.) *)

Abbreviation suspended := (request * (reply → prog unit))%type.

Record system := {
  calls : registry;
  waiting : list suspended;
  history : list event
}.

Definition boot : system := {| calls := ∅; waiting := []; history := [] |}.

(** Run [p] to its next [await], or to its end.  An exception nobody
    catches ends the handler. *)
Fixpoint advance (p : prog unit) (reg : registry)
  : registry * list event * option suspended :=
  match p with
  | Ret _ => (reg, [], None)
  | Throw _ => (reg, [], None)
  | Log l msg k =>
      let '(reg', evs, w) := advance k reg in (reg', Logged l msg :: evs, w)
  | MapGet key k => advance (k (reg !! key)) reg
  | MapSet key v k => advance k (<[key := v]> reg)
  | MapDelete key k => advance k (delete key reg)
  | Send st body k =>
      let '(reg', evs, w) := advance k reg in (reg', Responded st body :: evs, w)
  | Await r k => (reg, [Posted r], Some (r, k))
  end.

Definition arrive (p : prog unit) (s : system) : system :=
  let '(reg', evs, w) := advance p (calls s) in
  {| calls := reg';
     waiting := waiting s ++ option_list w;
     history := history s ++ evs |}.

Definition resume (i : nat) (rep : reply) (p : prog unit) (s : system) : system :=
  let '(reg', evs, w) := advance p (calls s) in
  {| calls := reg';
     waiting := delete i (waiting s) ++ option_list w;
     history := history s ++ Settled rep :: evs |}.

Section EventLoop.

Variables (WABA_TOKEN WABA_BASE WABA_PHONE_ID EDGE_API : string).

Inductive step : system → system → Prop :=
| step_connect s body :
    step s (arrive (connect_handler WABA_TOKEN WABA_BASE WABA_PHONE_ID EDGE_API body) s)
| step_terminate s body :
    step s (arrive (terminate_handler WABA_TOKEN WABA_BASE WABA_PHONE_ID EDGE_API body) s)
| step_settle s i r k rep :
    waiting s !! i = Some (r, k) →
    step s (resume i rep (k rep) s).

Definition reachable (s : system) : Prop := rtc step boot s.

End EventLoop.

(** ** What the properties speak of *)

(** Every key and every stored [edgeSessionId] is truthy. *)
Definition registry_ok (reg : registry) : Prop :=
  ∀ key st, reg !! key = Some st → truthy key ∧ truthy (edgeSessionId st).

(** Every [activeCalls.set] a program can reach stores a truthy
    [edgeSessionId] under a truthy key. *)
Inductive sets_valid {A} : prog A → Prop :=
| sv_ret a : sets_valid (Ret a)
| sv_throw e : sets_valid (Throw e)
| sv_log l msg k : sets_valid k → sets_valid (Log l msg k)
| sv_get key k : (∀ o, sets_valid (k o)) → sets_valid (MapGet key k)
| sv_set key v k :
    truthy key → truthy (edgeSessionId v) → sets_valid k →
    sets_valid (MapSet key v k)
| sv_delete key k : sets_valid k → sets_valid (MapDelete key k)
| sv_send st body k : sets_valid k → sets_valid (Send st body k)
| sv_await r k : (∀ rep, sets_valid (k rep)) → sets_valid (Await r k).

Definition waiting_ok (ws : list suspended) : Prop :=
  Forall (λ w : suspended, ∀ rep, sets_valid (w.2 rep)) ws.

Definition system_ok (s : system) : Prop :=
  registry_ok (calls s) ∧ waiting_ok (waiting s).

(** The source keeps no [state] field in a session.  The spec's [Active]
    is read on the code as: the connect flow has run to its end, it has
    answered 200, and the entry of the call is in the registry. *)
Definition active (o : outcome unit) (callId : jsval) : Prop :=
  final o = Returned tt ∧ responses (trace o) = [200%N] ∧ is_Some (store o !! callId).

(** [preAccept] or [accept] is rejected: the replies that follow the
    answer of the edge. *)
Inductive acceptance_fails : list reply → Prop :=
| preAccept_fails e rest : acceptance_fails (Rejected e :: rest)
| accept_fails d1 e rest : acceptance_fails (Resolved d1 :: Rejected e :: rest).

(** The connect flow read off case by case, for the proofs: its trace and
    the registry it leaves ([connect_run_trace] and [connect_run_store]
    show that [run] computes them). *)

Section Summary.

Variables (WABA_TOKEN WABA_BASE WABA_PHONE_ID EDGE_API : string).

(** After a complete answer of the edge: [preAccept], then [accept]. *)
Definition tail_trace (callId answer : jsval) (rest : list reply) : list event :=
  Logged Debug "Calling WABA API"
  :: Posted (preAccept_request WABA_TOKEN WABA_BASE WABA_PHONE_ID callId answer)
  :: match rest with
     | [] => []
     | Rejected e :: _ =>
         [Settled (Rejected e); Logged Error "Error handling connect";
          Responded 500 "Internal Server Error"]
     | Resolved d1 :: rest1 =>
         Settled (Resolved d1)
         :: Logged Debug "Calling WABA API"
         :: Posted (accept_request WABA_TOKEN WABA_BASE WABA_PHONE_ID callId)
         :: match rest1 with
            | [] => []
            | Rejected e :: _ =>
                [Settled (Rejected e); Logged Error "Error handling connect";
                 Responded 500 "Internal Server Error"]
            | Resolved d2 :: _ => [Settled (Resolved d2); Responded 200 "OK"]
            end
     end.

Definition connect_trace (body : connect_body) (replies : list reply) : list event :=
  if malformed body then [Responded 400 "Invalid payload"]
  else
    Logged Info "Received connect webhook"
    :: Posted (negotiate_request EDGE_API (call_id body) (session_sdp (session body)))
    :: match replies with
       | [] => []
       | Rejected e :: _ =>
           [Settled (Rejected e); Logged Error "Error handling connect";
            Responded 500 "Internal Server Error"]
       | Resolved d :: rest =>
           Settled (Resolved d)
           :: if incomplete d
              then [Logged Error "Error handling connect";
                    Responded 500 "Internal Server Error"]
              else tail_trace (call_id body) (sdp_answer d) rest
       end.

Definition connect_store (body : connect_body) (replies : list reply)
    (reg : registry) : registry :=
  if malformed body then reg
  else match replies with
       | Resolved d :: _ =>
           if incomplete d then reg
           else <[call_id body := {| edgeSessionId := edge_session_id d |}]> reg
       | _ => reg
       end.

End Summary.

(** ** Scenarios

    The calls of the spec's scenarios, on a concrete configuration. *)

Definition token : string := "secret".
Definition waba_base : string := "https://graph.facebook.com/v20.0".
Definition phone_id : string := "15550001".
Definition edge_api : string := "https://edge.example.com".

Definition on_connect : connect_body → prog unit :=
  connect_handler token waba_base phone_id edge_api.
Definition on_terminate : terminate_body → prog unit :=
  terminate_handler token waba_base phone_id edge_api.

Definition connect_C1 : connect_body :=
  {| call_id := Some "C1"; session := Some {| sdp := Some "O1" |} |}.
Definition connect_no_id : connect_body :=
  {| call_id := undefined; session := Some {| sdp := Some "O1" |} |}.
Definition terminate_C1 : terminate_body := {| t_call_id := Some "C1" |}.
Definition terminate_C9 : terminate_body := {| t_call_id := Some "C9" |}.
Definition terminate_no_id : terminate_body := {| t_call_id := undefined |}.

Definition answer_E1 : edge_data :=
  {| edge_session_id := Some "E1"; sdp_answer := Some "A1" |}.
Definition answer_E2 : edge_data :=
  {| edge_session_id := Some "E2"; sdp_answer := Some "A2" |}.
Definition answer_no_sdp : edge_data :=
  {| edge_session_id := Some "E1"; sdp_answer := undefined |}.
(** The body of a platform response; the handlers do not read it. *)
Definition no_data : edge_data :=
  {| edge_session_id := undefined; sdp_answer := undefined |}.

Definition session_E1 : call_state := {| edgeSessionId := Some "E1" |}.
Definition registry_C1 : registry := {[ Some "C1" := session_E1 ]}.

(** The event loop after Scenario A's connect webhook has arrived and the
    edge has answered: the handler is waiting on [preAccept]. *)
Definition negotiated : system :=
  let s := arrive (on_connect connect_C1) boot in
  match waiting s with
  | (_, k) :: _ => resume 0 (Resolved answer_E1) (k (Resolved answer_E1)) s
  | [] => s
  end.

(** ** Start-up

    [const { WABA_TOKEN, WABA_BASE = '...', WABA_PHONE_ID, EDGE_API,
    PORT = 3000 } = process.env], the test that follows it and
    [app.listen].  A variable of [process.env] is a string or [undefined];
    a default of the destructuring applies to [undefined] only. *)







(** ** What the event loop has seen

    The edge session ids carried by the responses settled so far. *)
Definition seen (h : list event) (x : jsval) : Prop :=
  ∃ d, Settled (Resolved d) ∈ h ∧ edge_session_id d = x.

(** [obeys post_ok S p]: with [S] the ids known so far, [p] stores only
    ids of [S], given that it reads only such ids, and every request it
    sends is allowed by [post_ok]; a continuation is resumed with more
    ids known, those of the reply among them. *)
Inductive obeys {A} (post_ok : (jsval → Prop) → request → Prop)
  : (jsval → Prop) → prog A → Prop :=
| ob_ret S a : obeys post_ok S (Ret a)
| ob_throw S e : obeys post_ok S (Throw e)
| ob_log S l msg k : obeys post_ok S k → obeys post_ok S (Log l msg k)
| ob_get S key k :
    (∀ o, (∀ st, o = Some st → S (edgeSessionId st)) → obeys post_ok S (k o)) →
    obeys post_ok S (MapGet key k)
| ob_set S key v k :
    S (edgeSessionId v) → obeys post_ok S k → obeys post_ok S (MapSet key v k)
| ob_delete S key k : obeys post_ok S k → obeys post_ok S (MapDelete key k)
| ob_send S st body k : obeys post_ok S k → obeys post_ok S (Send st body k)
| ob_await S r k :
    post_ok S r →
    (∀ rep (S' : jsval → Prop),
       (∀ x, S x → S' x) →
       (∀ d, rep = Resolved d → S' (edge_session_id d)) →
       obeys post_ok S' (k rep)) →
    obeys post_ok S (Await r k).

(** The registry, the history and the suspended handlers of a system all
    respect [post_ok]. *)
Definition tracked (post_ok : (jsval → Prop) → request → Prop) (s : system) : Prop :=
  (∀ key st, calls s !! key = Some st → seen (history s) (edgeSessionId st)) ∧
  (∀ pre r post, history s = pre ++ Posted r :: post → post_ok (seen pre) r) ∧
  Forall (λ w : suspended,
            ∀ rep (S' : jsval → Prop),
              (∀ x, seen (history s) x → S' x) →
              (∀ d, rep = Resolved d → S' (edge_session_id d)) →
              obeys post_ok S' (w.2 rep))
         (waiting s).

Section Requests.

Variables (WABA_TOKEN WABA_BASE WABA_PHONE_ID EDGE_API : string).

(** A hangup request is for an id already known. *)
Definition hangup_known (S : jsval → Prop) (r : request) : Prop :=
  ∀ eid, r = hangup_request EDGE_API eid → S eid.

(** The two kinds of request: to the edge, without headers, and to the
    platform, under [WABA_BASE/WABA_PHONE_ID] with the bearer token. *)
Definition to_edge (r : request) : Prop :=
  headers r = [] ∧
  (url r = EDGE_API +:+ "/webrtc/new" ∨ url r = EDGE_API +:+ "/webrtc/hangup").

Definition to_platform (r : request) : Prop :=
  headers r = [("Authorization", "Bearer " +:+ WABA_TOKEN)] ∧
  ∃ path, url r = WABA_BASE +:+ "/" +:+ WABA_PHONE_ID +:+ path.

Definition well_addressed (S : jsval → Prop) (r : request) : Prop :=
  to_edge r ∨ to_platform r.

End Requests.

(** ** More scenarios *)


Definition session_E7 : call_state := {| edgeSessionId := Some "E7" |}.
Definition registry_C7 : registry := {[ Some "C7" := session_E7 ]}.

(** The event loop after Scenario A's connect has run on: [preAccept]
    has settled, then [accept] has settled and the flow has ended, then a
    terminate webhook for [C1] has arrived and its handler is waiting on
    the hangup request. *)
Definition pre_accepted : system :=
  match waiting negotiated with
  | (_, k) :: _ => resume 0 (Resolved no_data) (k (Resolved no_data)) negotiated
  | [] => negotiated
  end.

Definition connected : system :=
  match waiting pre_accepted with
  | (_, k) :: _ => resume 0 (Resolved no_data) (k (Resolved no_data)) pre_accepted
  | [] => pre_accepted
  end.

Definition hanging_up : system := arrive (on_terminate terminate_C1) connected.

(** * Properties *)

Create HintDb orch discriminated.
#[global] Hint Constructors sets_valid : orch.

(** An event at a known place of a list splits it there. *)
Lemma split_at {A} (l pre post : list A) (x : A) :
  l = pre ++ x :: post →
  l !! length pre = Some x ∧ pre = take (length pre) l.
Proof.
  intros ->. split.
  - by rewrite list_lookup_middle.
  - by rewrite take_app_length.
Qed.

Lemma elem_of_requests r t : r ∈ requests t ↔ Posted r ∈ t.
Proof.
  unfold requests. rewrite list_elem_of_omap. split.
  - intros (e & He & Hr). destruct e; simplify_eq. done.
  - intros H. exists (Posted r). done.
Qed.

(** Find the place of an event of a known trace. *)
Ltac locate H :=
  let Hlk := fresh "Hlk" in
  let Hpre := fresh "Hpre" in
  apply split_at in H as [Hlk Hpre];
  match type of Hlk with
  | _ !! ?len = _ =>
      let n := fresh "n" in
      generalize dependent len; intros n Hlk Hpre;
      repeat first
        [ discriminate Hlk
        | destruct n as [| n]; simpl in Hlk;
          [ try discriminate Hlk; simpl in Hpre | ] ]
  end.

(** Decide membership of an event in a trace that is known. *)
Ltac in_trace H :=
  repeat (apply elem_of_cons in H as [H | H]; [try discriminate H |]);
  try (by apply elem_of_nil in H).

Lemma malformed_iff body :
  malformed body = false ↔
  truthy (call_id body) ∧ truthy (session_sdp (session body)).
Proof.
  unfold malformed. destruct body as [c [[o] |]]; simpl.
  - destruct (truthy c), (truthy o); simpl; intuition congruence.
  - destruct (truthy c); simpl; intuition congruence.
Qed.

Lemma incomplete_iff d :
  incomplete d = false ↔ truthy (edge_session_id d) ∧ truthy (sdp_answer d).
Proof.
  unfold incomplete.
  destruct (truthy (edge_session_id d)), (truthy (sdp_answer d)); simpl;
    intuition congruence.
Qed.

(** ** The two readings agree

    A flow that runs alone in the event loop does what [run] says: a
    segment that ends the handler is the whole run, and a segment that
    ends on an [await] is followed by the run of the continuation. *)
Lemma run_segment (p : prog unit) reg :
  match advance p reg with
  | (reg', evs, None) =>
      ∀ replies,
        store (run p replies reg) = reg' ∧ trace (run p replies reg) = evs
  | (reg', evs, Some (r, k)) =>
      run p [] reg = {| final := Suspended r; store := reg'; trace := evs |} ∧
      ∀ rep rest,
        final (run p (rep :: rest) reg) = final (run (k rep) rest reg') ∧
        store (run p (rep :: rest) reg) = store (run (k rep) rest reg') ∧
        trace (run p (rep :: rest) reg)
        = evs ++ Settled rep :: trace (run (k rep) rest reg')
  end.
Proof.
  revert reg.
  induction p as [a | e | l msg k IH | key k IH | key v k IH | key k IH
                  | st body k IH | r k IH]; intros reg; simpl; try done.
  - specialize (IH reg). destruct (advance k reg) as [[reg' evs] [[r k'] |]].
    + destruct IH as [H0 IH]. split; [by rewrite H0 |].
      intros rep rest. destruct (IH rep rest) as (Hf & Hs & Ht).
      simpl. by rewrite Hf, Hs, Ht.
    + intros replies. destruct (IH replies) as [Hs Ht]. simpl.
      by rewrite Hs, Ht.
  - apply IH.
  - apply IH.
  - apply IH.
  - specialize (IH reg). destruct (advance k reg) as [[reg' evs] [[r k'] |]].
    + destruct IH as [H0 IH]. split; [by rewrite H0 |].
      intros rep rest. destruct (IH rep rest) as (Hf & Hs & Ht).
      simpl. by rewrite Hf, Hs, Ht.
    + intros replies. destruct (IH replies) as [Hs Ht]. simpl.
      by rewrite Hs, Ht.
Qed.

(** ** The registry stays well formed *)

Lemma sets_valid_bind {A B} (m : prog A) (f : A → prog B) :
  sets_valid m → (∀ a, sets_valid (f a)) → sets_valid (bind m f).
Proof. induction 1; intros Hf; simpl; eauto with orch. Qed.

Lemma sets_valid_try_catch {A} (m : prog A) (h : string → prog A) :
  sets_valid m → (∀ e, sets_valid (h e)) → sets_valid (try_catch m h).
Proof. induction 1; intros Hh; simpl; eauto with orch. Qed.

Lemma sets_valid_post r : sets_valid (post r).
Proof. constructor. intros []; constructor. Qed.

Lemma sets_valid_sendStatus st : sets_valid (sendStatus st).
Proof. repeat constructor. Qed.

#[global] Hint Resolve sets_valid_post sets_valid_sendStatus : orch.

Lemma registry_ok_empty : registry_ok ∅.
Proof. intros key st H. by rewrite lookup_empty in H. Qed.

Lemma registry_ok_insert reg key st :
  registry_ok reg → truthy key → truthy (edgeSessionId st) →
  registry_ok (<[key := st]> reg).
Proof.
  intros Hreg Hk Hv key' st'. rewrite lookup_insert.
  case_decide; [intros [= <-]; by subst | apply Hreg].
Qed.

Lemma registry_ok_delete reg key :
  registry_ok reg → registry_ok (delete key reg).
Proof.
  intros Hreg key' st'. rewrite lookup_delete.
  case_decide; [done | apply Hreg].
Qed.

#[global] Hint Resolve registry_ok_empty registry_ok_insert registry_ok_delete : orch.

(** A segment of a valid program keeps the registry well formed and
    leaves a valid continuation behind. *)
Lemma advance_ok p reg reg' evs w :
  sets_valid p → registry_ok reg → advance p reg = (reg', evs, w) →
  registry_ok reg' ∧ waiting_ok (option_list w).
Proof.
  intros Hp. revert reg reg' evs w.
  induction Hp; intros reg reg' evs w Hreg Hadv; simpl in Hadv.
  - injection Hadv as <- <- <-. split; [done | constructor].
  - injection Hadv as <- <- <-. split; [done | constructor].
  - destruct (advance k reg) as [[r1 e1] w1] eqn:E.
    injection Hadv as <- <- <-. eauto.
  - eauto.
  - eauto with orch.
  - eauto with orch.
  - destruct (advance k reg) as [[r1 e1] w1] eqn:E.
    injection Hadv as <- <- <-. eauto.
  - injection Hadv as <- <- <-. split; [done |].
    constructor; [done | constructor].
Qed.

Lemma run_ok {A} (p : prog A) replies reg :
  sets_valid p → registry_ok reg → registry_ok (store (run p replies reg)).
Proof.
  intros Hp. revert replies reg.
  induction Hp; intros replies reg Hreg; simpl; eauto with orch.
  destruct replies; simpl; eauto.
Qed.

Section Properties.

Variables (WABA_TOKEN WABA_BASE WABA_PHONE_ID EDGE_API : string).

#[local] Abbreviation connect :=
  (connect_handler WABA_TOKEN WABA_BASE WABA_PHONE_ID EDGE_API).
#[local] Abbreviation on_terminate :=
  (terminate_handler WABA_TOKEN WABA_BASE WABA_PHONE_ID EDGE_API).
#[local] Abbreviation negotiate_req := (negotiate_request EDGE_API).
#[local] Abbreviation hangup_req := (hangup_request EDGE_API).
#[local] Abbreviation preAccept_req :=
  (preAccept_request WABA_TOKEN WABA_BASE WABA_PHONE_ID).
#[local] Abbreviation accept_req :=
  (accept_request WABA_TOKEN WABA_BASE WABA_PHONE_ID).
#[local] Abbreviation terminate_req :=
  (terminate_request WABA_TOKEN WABA_BASE WABA_PHONE_ID).
#[local] Abbreviation is_preAccept :=
  (is_preAccept WABA_TOKEN WABA_BASE WABA_PHONE_ID).
#[local] Abbreviation is_accept :=
  (is_accept WABA_TOKEN WABA_BASE WABA_PHONE_ID).
#[local] Abbreviation is_hangup := (is_hangup EDGE_API).
#[local] Abbreviation connect_trace :=
  (connect_trace WABA_TOKEN WABA_BASE WABA_PHONE_ID EDGE_API).
#[local] Abbreviation reached :=
  (reachable WABA_TOKEN WABA_BASE WABA_PHONE_ID EDGE_API).

Lemma sets_valid_callWaba path body :
  sets_valid (callWaba WABA_TOKEN WABA_BASE WABA_PHONE_ID path body).
Proof. unfold callWaba. repeat constructor. intros []; constructor. Qed.

Lemma sets_valid_connect body :
  sets_valid (connect body).
Proof.
  unfold connect_handler.
  destruct (malformed body) eqn:E; [repeat constructor |].
  apply malformed_iff in E as [Hk _].
  constructor. simpl. constructor. intros [d | e]; simpl.
  - destruct (incomplete d) eqn:Ed; simpl.
    + repeat constructor.
    + apply incomplete_iff in Ed as [He _].
      constructor; [done | done |].
      repeat constructor; intros []; repeat constructor;
        intros []; repeat constructor.
  - repeat constructor.
Qed.

Lemma sets_valid_terminate body :
  sets_valid (on_terminate body).
Proof.
  unfold terminate_handler. constructor. simpl. constructor.
  intros [st |]; simpl.
  - destruct (truthy (edgeSessionId st)); simpl.
    + repeat constructor. intros []; repeat constructor.
      intros []; repeat constructor.
    + repeat constructor. intros []; repeat constructor.
  - repeat constructor. intros []; repeat constructor.
Qed.

Lemma step_ok s s' :
  step WABA_TOKEN WABA_BASE WABA_PHONE_ID EDGE_API s s' →
  system_ok s → system_ok s'.
Proof.
  intros Hstep [Hreg Hw].
  destruct Hstep as [s body | s body | s i r k rep Hi].
  - unfold arrive.
    destruct (advance _ _) as [[reg' evs] w] eqn:E; simpl.
    destruct (advance_ok _ _ _ _ _ (sets_valid_connect body) Hreg E).
    split; [done | by apply Forall_app].
  - unfold arrive.
    destruct (advance _ _) as [[reg' evs] w] eqn:E; simpl.
    destruct (advance_ok _ _ _ _ _ (sets_valid_terminate body) Hreg E).
    split; [done | by apply Forall_app].
  - unfold resume.
    destruct (advance _ _) as [[reg' evs] w] eqn:E; simpl.
    assert (Hk : sets_valid (k rep)).
    { apply (Forall_lookup_1 _ _ _ _ Hw Hi). }
    destruct (advance_ok _ _ _ _ _ Hk Hreg E).
    split; [done |]. apply Forall_app. split; [| done].
    by apply Forall_delete.
Qed.

Lemma reachable_ok s :
  reached s → system_ok s.
Proof.
  intros H. unfold reachable in H. revert s H. apply rtc_ind_r.
  - split; [apply registry_ok_empty | constructor].
  - eauto using step_ok.
Qed.

(** ** The flows, request by request *)

Lemma connect_run_trace body replies reg :
  trace (run (connect body) replies reg) = connect_trace body replies.
Proof.
  unfold connect_handler, connect_trace, tail_trace.
  destruct (malformed body); [done |].
  destruct replies as [| [d | e] rest]; simpl; [done | | done].
  destruct (incomplete d); simpl; [done |].
  destruct rest as [| [d1 | e1] rest1]; simpl; [done | | done].
  destruct rest1 as [| [d2 | e2] rest2]; simpl; done.
Qed.

Lemma connect_run_store body replies reg :
  store (run (connect body) replies reg) = connect_store body replies reg.
Proof.
  unfold connect_handler, connect_store.
  destruct (malformed body); [done |].
  destruct replies as [| [d | e] rest]; simpl; [done | | done].
  destruct (incomplete d); simpl; [done |].
  destruct rest as [| [d1 | e1] rest1]; simpl; [done | | done].
  destruct rest1 as [| [d2 | e2] rest2]; simpl; done.
Qed.

Lemma negotiate_not_preAccept c o : ¬ is_preAccept (negotiate_req c o).
Proof. intros (c' & a & H). discriminate H. Qed.
Lemma negotiate_not_accept c o : ¬ is_accept (negotiate_req c o).
Proof. intros (c' & H). discriminate H. Qed.
Lemma negotiate_not_hangup c o : ¬ is_hangup (negotiate_req c o).
Proof. intros (e & H). discriminate H. Qed.
Lemma preAccept_not_accept c a : ¬ is_accept (preAccept_req c a).
Proof. intros (c' & H). discriminate H. Qed.
Lemma waba_not_hangup path body :
  ¬ is_hangup (waba_request WABA_TOKEN WABA_BASE WABA_PHONE_ID path body).
Proof. intros (e & H). discriminate H. Qed.
Lemma accept_not_preAccept c : ¬ is_preAccept (accept_req c).
Proof. intros (c' & a & H). discriminate H. Qed.

(** C6. A connect event without a callId, or without a non-empty SDP
    offer, is answered 400 "Invalid payload" and nothing else happens: the
    registry is unchanged, no request is sent, and the event loop holds no
    suspended handler for it. *)
Theorem connect_malformed_rejected body replies reg s :
  ¬ truthy (call_id body) ∨ ¬ truthy (session_sdp (session body)) →
  let o := run (connect body) replies reg in
  trace o = [Responded 400 "Invalid payload"] ∧
  store o = reg ∧
  requests (trace o) = [] ∧
  final o = Returned tt ∧
  arrive (connect body) s =
    {| calls := calls s; waiting := waiting s;
       history := history s ++ [Responded 400 "Invalid payload"] |}.
Proof.
  intros Hbad.
  assert (Hm : malformed body = true).
  { destruct (malformed body) eqn:E; [done |].
    apply malformed_iff in E. tauto. }
  unfold connect_handler, arrive. rewrite Hm. simpl.
  by rewrite app_nil_r.
Qed.

(** C5. An answer of the edge without [edge_session_id] or without
    [sdp_answer] makes the connect flow fail: the error is logged, 500 is
    answered, no further request is sent and the registry is unchanged. *)
Theorem incomplete_answer_fails body d rest reg :
  truthy (call_id body) → truthy (session_sdp (session body)) →
  ¬ truthy (edge_session_id d) ∨ ¬ truthy (sdp_answer d) →
  let o := run (connect body) (Resolved d :: rest) reg in
  trace o = [Logged Info "Received connect webhook";
             Posted (negotiate_req (call_id body) (session_sdp (session body)));
             Settled (Resolved d);
             Logged Error "Error handling connect";
             Responded 500 "Internal Server Error"] ∧
  store o = reg ∧
  final o = Returned tt.
Proof.
  intros Hc Ho Hd.
  assert (Hm : malformed body = false) by (by apply malformed_iff).
  assert (Hi : incomplete d = true).
  { destruct (incomplete d) eqn:E; [done |].
    apply incomplete_iff in E. tauto. }
  unfold connect_handler. rewrite Hm. simpl. by rewrite Hi.
Qed.

(** C8. When the edge answers with an edge session id and an SDP answer
    and both [preAccept] and [accept] succeed, the flow answers 200 and
    the registry maps the callId to that edge session id: the session is
    active.  From an empty registry that entry is the only one. *)
Theorem connect_success_registers body d d1 d2 rest reg :
  truthy (call_id body) → truthy (session_sdp (session body)) →
  truthy (edge_session_id d) → truthy (sdp_answer d) →
  let o := run (connect body) (Resolved d :: Resolved d1 :: Resolved d2 :: rest) reg in
  responses (trace o) = [200%N] ∧
  store o = <[call_id body := {| edgeSessionId := edge_session_id d |}]> reg ∧
  store o !! call_id body = Some {| edgeSessionId := edge_session_id d |} ∧
  dom (store o) = {[call_id body]} ∪ dom reg ∧
  active o (call_id body).
Proof.
  intros Hc Ho He Ha.
  assert (Hm : malformed body = false) by (by apply malformed_iff).
  assert (Hi : incomplete d = false) by (by apply incomplete_iff).
  unfold active, connect_handler. rewrite Hm. simpl. rewrite Hi. simpl.
  rewrite lookup_insert_eq, dom_insert_L. eauto 10.
Qed.

(** C4. In a connect flow the three requests go out in sequence: a
    [preAccept] request appears in the trace only after the negotiate
    request of the flow has settled to a complete answer, and an [accept]
    request only after the [preAccept] request of the flow has settled
    successfully. *)
Theorem connect_calls_sequenced body replies reg :
  let t := trace (run (connect body) replies reg) in
  (∀ pre r post,
     t = pre ++ Posted r :: post → is_preAccept r →
     ∃ pre1 pre2 d,
       pre = pre1 ++ Posted (negotiate_req (call_id body) (session_sdp (session body)))
                  :: Settled (Resolved d) :: pre2 ∧
       truthy (edge_session_id d) ∧ truthy (sdp_answer d) ∧
       r = preAccept_req (call_id body) (sdp_answer d)) ∧
  (∀ pre r post,
     t = pre ++ Posted r :: post → is_accept r →
     ∃ pre1 pre2 answer d1,
       pre = pre1 ++ Posted (preAccept_req (call_id body) answer)
                  :: Settled (Resolved d1) :: pre2 ∧
       r = accept_req (call_id body)).
Proof.
  simpl. rewrite connect_run_trace. unfold connect_trace.
  destruct (malformed body).
  { split; intros pre r post H; locate H. }
  destruct replies as [| [d | e] rest].
  - split; intros pre r post H Hr; locate H; simplify_eq.
    + by apply negotiate_not_preAccept in Hr.
    + by apply negotiate_not_accept in Hr.
  - destruct (incomplete d) eqn:Hd.
    { split; intros pre r post H Hr; locate H; simplify_eq.
      + by apply negotiate_not_preAccept in Hr.
      + by apply negotiate_not_accept in Hr. }
    apply incomplete_iff in Hd as [He Ha].
    unfold tail_trace.
    destruct rest as [| [d1 | e1] rest1]; [| destruct rest1 as [| [d2 | e2] rest2] |];
      (split; intros pre r post H Hr; locate H; simplify_eq;
       try (by apply negotiate_not_preAccept in Hr);
       try (by apply negotiate_not_accept in Hr);
       try (by apply preAccept_not_accept in Hr);
       try (by apply accept_not_preAccept in Hr)).
    all: try (by eexists [_], [_], _).
    all: try (by eexists [_; _; _; _], [_], _, _).
  - split; intros pre r post H Hr; locate H; simplify_eq.
    + by apply negotiate_not_preAccept in Hr.
    + by apply negotiate_not_accept in Hr.
Qed.

(** C2, as the code has it.  When the edge has answered completely and
    [preAccept] or [accept] then fails, the handler logs the error and
    answers 500; it sends no hangup request, and the entry recorded
    before [preAccept] stays in the registry. *)
Theorem acceptance_failure_keeps_session body d rest reg :
  truthy (call_id body) → truthy (session_sdp (session body)) →
  truthy (edge_session_id d) → truthy (sdp_answer d) →
  acceptance_fails rest →
  let o := run (connect body) (Resolved d :: rest) reg in
  (∀ r, r ∈ requests (trace o) → ¬ is_hangup r) ∧
  store o !! call_id body = Some {| edgeSessionId := edge_session_id d |} ∧
  responses (trace o) = [500%N] ∧
  last (trace o) = Some (Responded 500 "Internal Server Error") ∧
  final o = Returned tt.
Proof.
  intros Hc Ho He Ha Hfail.
  assert (Hm : malformed body = false) by (by apply malformed_iff).
  assert (Hi : incomplete d = false) by (by apply incomplete_iff).
  unfold connect_handler. rewrite Hm.
  destruct Hfail; simpl; rewrite Hi; simpl;
    rewrite lookup_insert_eq; (split; [| done]);
    intros r Hr; repeat (apply elem_of_cons in Hr as [-> | Hr]);
    try (by apply elem_of_nil in Hr);
    auto using negotiate_not_hangup, waba_not_hangup.
Qed.

(** C1, as the code has it.  The registry is a [Map]: it holds one entry
    per callId.  A connect event for a callId that is already registered
    is not turned away: the negotiate request is sent again, and when the
    edge answers completely the entry of the callId is overwritten with
    the new edge session id, the number of entries staying the same. *)
Theorem duplicate_connect_renegotiates body st rep rest reg :
  reg !! call_id body = Some st →
  truthy (call_id body) → truthy (session_sdp (session body)) →
  let o := run (connect body) (rep :: rest) reg in
  (∃ t, trace o =
          Logged Info "Received connect webhook"
          :: Posted (negotiate_req (call_id body) (session_sdp (session body)))
          :: Settled rep :: t) ∧
  (∀ d, rep = Resolved d →
        truthy (edge_session_id d) → truthy (sdp_answer d) →
        store o !! call_id body = Some {| edgeSessionId := edge_session_id d |}) ∧
  size (store o) = size reg.
Proof.
  intros Hreg Hc Ho.
  assert (Hm : malformed body = false) by (by apply malformed_iff).
  simpl. rewrite connect_run_trace, connect_run_store.
  unfold connect_trace, connect_store. rewrite Hm.
  destruct rep as [d | e].
  - destruct (incomplete d) eqn:Hi.
    + split; [by eexists |]. split; [| done].
      intros ? [= <-] He Ha.
      assert (incomplete d = false) by (by apply incomplete_iff). congruence.
    + split; [by eexists |]. split.
      * intros ? [= <-] _ _. by rewrite lookup_insert_eq.
      * by erewrite map_size_insert_Some.
  - split; [by eexists |]. done.
Qed.

(** ** The terminate flow *)

(** C7. With no entry for the callId the terminate flow sends no hangup
    request; it sends the terminate request to the platform, logs a
    warning if that request is rejected, and answers 200 either way.  The
    registry is left as it was, so a later terminate for the same callId
    behaves the same. *)
Theorem terminate_without_session body rep rest reg :
  reg !! t_call_id body = None →
  let o := run (on_terminate body) (rep :: rest) reg in
  trace o =
    [Logged Info "Received terminate webhook";
     Logged Debug "Calling WABA API";
     Posted (terminate_req (t_call_id body));
     Settled rep]
    ++ match rep with
       | Resolved _ => []
       | Rejected _ => [Logged Warn "Failed to call terminate"]
       end
    ++ [Responded 200 "OK"] ∧
  (∀ r, r ∈ requests (trace o) → ¬ is_hangup r) ∧
  responses (trace o) = [200%N] ∧
  final o = Returned tt ∧
  store o = reg ∧
  store o !! t_call_id body = None.
Proof.
  intros Hreg. unfold terminate_handler. simpl. rewrite Hreg.
  destruct rep as [d | e]; simpl;
    (repeat split; [| done]);
    intros r Hr; in_trace Hr; subst r; apply waba_not_hangup.
Qed.

(** After a terminate flow that answered 200, a well-formed registry has
    no entry for the callId: a second terminate finds no session. *)
Lemma terminate_success_clears body replies reg :
  registry_ok reg →
  Responded 200 "OK" ∈ trace (run (on_terminate body) replies reg) →
  store (run (on_terminate body) replies reg) !! t_call_id body = None.
Proof.
  intros Hreg. unfold terminate_handler. simpl.
  destruct (reg !! t_call_id body) as [st |] eqn:E; simpl.
  - destruct (Hreg _ _ E) as [_ Hst]. apply Is_true_true in Hst.
    rewrite Hst. simpl.
    destruct replies as [| [d | e] rest]; simpl.
    + intros H. in_trace H.
    + intros _. destruct rest as [| [d1 | e1] rest1]; simpl;
        apply lookup_delete_eq.
    + intros H. in_trace H.
  - intros _. destruct replies as [| [d | e] rest]; simpl; done.
Qed.

(** C3, as the code has it.  For a session with an edge session id the
    entry is deleted after the hangup request has succeeded, and the flow
    then answers 200 whatever becomes of the terminate request.  When the
    hangup request is rejected the handler logs the error and answers
    500: the entry stays in the registry and no terminate request is
    sent. *)
Theorem terminate_removes_after_hangup body st reg :
  reg !! t_call_id body = Some st →
  truthy (edgeSessionId st) →
  (∀ e rest,
     let o := run (on_terminate body) (Rejected e :: rest) reg in
     trace o = [Logged Info "Received terminate webhook";
                Posted (hangup_req (edgeSessionId st));
                Settled (Rejected e);
                Logged Error "Error handling terminate";
                Responded 500 "Internal Server Error"] ∧
     store o = reg ∧
     final o = Returned tt) ∧
  (∀ d rep rest,
     let o := run (on_terminate body) (Resolved d :: rep :: rest) reg in
     requests (trace o) =
       [hangup_req (edgeSessionId st); terminate_req (t_call_id body)] ∧
     responses (trace o) = [200%N] ∧
     store o = delete (t_call_id body) reg ∧
     final o = Returned tt).
Proof.
  intros Hreg Hst. apply Is_true_true in Hst.
  unfold terminate_handler. simpl. rewrite Hreg. simpl. rewrite Hst. simpl.
  split; [done |].
  intros d [d1 | e1] rest; simpl; done.
Qed.

(** C10. The terminate handler has no test on its payload: whatever the
    body, it answers 200 or 500, never 400.  For a body without
    [call_id], in any state the event loop can reach, no hangup request
    is sent (no entry is keyed by [undefined]), the terminate request is
    sent for the call "undefined", and the answer is 200. *)
Theorem terminate_not_validated :
  (∀ body replies reg st b,
     Responded st b ∈ trace (run (on_terminate body) replies reg) →
     st = 200%N ∨ st = 500%N) ∧
  (∀ s body rep rest,
     reached s →
     t_call_id body = undefined →
     let o := run (on_terminate body) (rep :: rest) (calls s) in
     requests (trace o) = [terminate_req undefined] ∧
     url (terminate_req undefined) =
       WABA_BASE +:+ "/" +:+ WABA_PHONE_ID +:+ "/calls/undefined/terminate" ∧
     responses (trace o) = [200%N] ∧
     final o = Returned tt).
Proof.
  split.
  - intros body replies reg st b. unfold terminate_handler. simpl.
    destruct (reg !! t_call_id body) as [cs |]; simpl.
    + destruct (truthy (edgeSessionId cs)); simpl.
      * destruct replies as [| [d | e] rest]; simpl.
        -- intros H. in_trace H.
        -- destruct rest as [| [d1 | e1] rest1]; simpl;
             intros H; in_trace H; simplify_eq; auto.
        -- intros H; in_trace H; simplify_eq; auto.
      * destruct replies as [| [d | e] rest]; simpl;
          intros H; in_trace H; simplify_eq; auto.
    + destruct replies as [| [d | e] rest]; simpl;
        intros H; in_trace H; simplify_eq; auto.
  - intros s body rep rest Hs Hid.
    apply reachable_ok in Hs as [Hreg _].
    assert (Hnone : calls s !! t_call_id body = None).
    { destruct (calls s !! t_call_id body) as [cs |] eqn:E; [| done].
      destruct (Hreg _ _ E) as [Hk _]. by rewrite Hid in Hk. }
    unfold terminate_handler. simpl. rewrite Hnone, Hid.
    destruct rep as [d | e]; simpl; done.
Qed.

(** C9. Every entry of the registry carries a non-empty edge session id,
    in every state the event loop can reach.  Both handlers only ever
    store such entries; the connect flow changes the registry only by
    recording the edge session id of a complete answer of the edge, and
    the terminate flow only removes. *)
Theorem registry_entries_carry_edge_session :
  (∀ s key st,
     reached s →
     calls s !! key = Some st →
     truthy (edgeSessionId st)) ∧
  (∀ body, sets_valid (connect body)) ∧
  (∀ body, sets_valid (on_terminate body)) ∧
  (∀ body replies reg,
     store (run (connect body) replies reg) = reg ∨
     ∃ d rest,
       replies = Resolved d :: rest ∧
       truthy (edge_session_id d) ∧ truthy (sdp_answer d) ∧
       store (run (connect body) replies reg) =
         <[call_id body := {| edgeSessionId := edge_session_id d |}]> reg) ∧
  (∀ body replies reg,
     store (run (on_terminate body) replies reg) ⊆ reg).
Proof.
  split; [| split; [| split; [| split]]].
  - intros s key st Hs Hlk.
    apply reachable_ok in Hs as [Hreg _]. by destruct (Hreg _ _ Hlk).
  - apply sets_valid_connect.
  - apply sets_valid_terminate.
  - intros body replies reg. rewrite connect_run_store. unfold connect_store.
    destruct (malformed body); [by left |].
    destruct replies as [| [d | e] rest]; [by left | | by left].
    destruct (incomplete d) eqn:Hi; [by left |].
    apply incomplete_iff in Hi as [He Ha]. right. by exists d, rest.
  - intros body replies reg. unfold terminate_handler. simpl.
    destruct (reg !! t_call_id body) as [cs |]; simpl.
    + destruct (truthy (edgeSessionId cs)); simpl.
      * destruct replies as [| [d | e] rest]; simpl; [done | | done].
        destruct rest as [| [d1 | e1] rest1]; simpl; apply delete_subseteq.
      * destruct replies as [| [d | e] rest]; simpl; done.
    + destruct replies as [| [d | e] rest]; simpl; done.
Qed.

End Properties.

(** ** The scenarios, run *)

(** Scenario B contradicts C1 as the spec states it: with [C1] registered,
    a second connect for [C1] sends the negotiate request and replaces the
    entry. *)
Lemma duplicate_connect_not_rejected :
  ¬ (∀ r, r ∈ requests (trace (run (on_connect connect_C1)
                            [Resolved answer_E2; Resolved no_data; Resolved no_data]
                            registry_C1)) →
          ¬ is_negotiate edge_api r) ∧
  ¬ (store (run (on_connect connect_C1)
              [Resolved answer_E2; Resolved no_data; Resolved no_data]
              registry_C1) = registry_C1).
Proof.
  split.
  - intros H.
    apply (H (negotiate_request edge_api (Some "C1") (Some "O1"))).
    + apply elem_of_requests. simpl. rewrite !elem_of_cons. by right; left.
    + by eexists _, _.
  - intros H.
    apply (f_equal (λ m : registry, m !! Some "C1")) in H.
    vm_compute in H. discriminate H.
Qed.

Lemma duplicate_connect_renegotiates_witness :
  registry_C1 !! call_id connect_C1 = Some session_E1 ∧
  truthy (call_id connect_C1) ∧
  truthy (session_sdp (session connect_C1)) ∧
  store (run (on_connect connect_C1)
           [Resolved answer_E2; Resolved no_data; Resolved no_data]
           registry_C1) !! Some "C1"
  = Some {| edgeSessionId := Some "E2" |}.
Proof.
  assert (H1 : registry_C1 !! call_id connect_C1 = Some session_E1)
    by (vm_compute; reflexivity).
  split; [exact H1 |]. split; [exact I |]. split; [exact I |].
  destruct (duplicate_connect_renegotiates token waba_base phone_id edge_api
              connect_C1 session_E1 (Resolved answer_E2)
              [Resolved no_data; Resolved no_data] registry_C1 H1 I I)
    as (_ & Hstore & _).
  exact (Hstore answer_E2 eq_refl I I).
Defined.

(** Scenario C contradicts C2 as the spec states it: after a complete
    answer of the edge and a rejected [accept], no hangup request has been
    sent for [E1] and the entry of [C1] is still in the registry. *)
Lemma accept_failure_no_hangup :
  ¬ (hangup_request edge_api (Some "E1")
       ∈ requests (trace (run (on_connect connect_C1)
                            [Resolved answer_E1; Resolved no_data; Rejected "gone"]
                            ∅))) ∧
  ¬ (store (run (on_connect connect_C1)
              [Resolved answer_E1; Resolved no_data; Rejected "gone"]
              ∅) !! Some "C1" = None).
Proof.
  split.
  - intros H. simpl in H.
    repeat (apply elem_of_cons in H as [H | H]; [discriminate H |]).
    by apply elem_of_nil in H.
  - intros H. vm_compute in H. discriminate H.
Qed.

Lemma acceptance_failure_keeps_session_witness :
  truthy (call_id connect_C1) ∧
  truthy (session_sdp (session connect_C1)) ∧
  truthy (edge_session_id answer_E1) ∧
  truthy (sdp_answer answer_E1) ∧
  acceptance_fails [Resolved no_data; Rejected "gone"] ∧
  responses (trace (run (on_connect connect_C1)
                      [Resolved answer_E1; Resolved no_data; Rejected "gone"] ∅))
  = [500%N].
Proof.
  assert (Hf : acceptance_fails [Resolved no_data; Rejected "gone"])
    by constructor.
  repeat (split; [first [exact I | exact Hf] |]).
  destruct (acceptance_failure_keeps_session token waba_base phone_id edge_api
              connect_C1 answer_E1 [Resolved no_data; Rejected "gone"] ∅
              I I I I Hf)
    as (_ & _ & Hresp & _).
  exact Hresp.
Defined.

(** Scenario E contradicts C3 as the spec states it: when the hangup
    request for [E1] is rejected, the entry of [C1] is still in the
    registry and the flow answers 500. *)
Lemma hangup_failure_keeps_entry :
  ¬ (store (run (on_terminate terminate_C1) [Rejected "network error"]
              registry_C1) !! Some "C1" = None) ∧
  ¬ (responses (trace (run (on_terminate terminate_C1) [Rejected "network error"]
                         registry_C1)) = [200%N]).
Proof.
  split; intros H; vm_compute in H; discriminate H.
Qed.

Lemma terminate_removes_after_hangup_witness :
  registry_C1 !! t_call_id terminate_C1 = Some session_E1 ∧
  truthy (edgeSessionId session_E1) ∧
  store (run (on_terminate terminate_C1) [Rejected "network error"] registry_C1)
  = registry_C1 ∧
  store (run (on_terminate terminate_C1) [Resolved no_data; Resolved no_data]
           registry_C1)
  = delete (Some "C1") registry_C1.
Proof.
  assert (H1 : registry_C1 !! t_call_id terminate_C1 = Some session_E1)
    by (vm_compute; reflexivity).
  split; [exact H1 |]. split; [exact I |].
  destruct (terminate_removes_after_hangup token waba_base phone_id edge_api
              terminate_C1 session_E1 registry_C1 H1 I) as [Hfail Hok].
  split.
  - exact (proj1 (proj2 (Hfail "network error" []))).
  - exact (proj1 (proj2 (proj2 (Hok no_data (Resolved no_data) [])))).
Defined.

Lemma connect_calls_sequenced_witness :
  (∃ pre1 pre2 d,
     [Logged Info "Received connect webhook";
      Posted (negotiate_request edge_api (Some "C1") (Some "O1"));
      Settled (Resolved answer_E1);
      Logged Debug "Calling WABA API"]
     = pre1 ++ Posted (negotiate_request edge_api (call_id connect_C1)
                         (session_sdp (session connect_C1)))
            :: Settled (Resolved d) :: pre2 ∧
     truthy (edge_session_id d) ∧ truthy (sdp_answer d) ∧
     preAccept_request token waba_base phone_id (Some "C1") (Some "A1")
     = preAccept_request token waba_base phone_id (call_id connect_C1) (sdp_answer d)).
Proof.
  apply (proj1 (connect_calls_sequenced token waba_base phone_id edge_api
                  connect_C1 [Resolved answer_E1; Rejected "gone"] ∅)
           _ _
           [Settled (Rejected "gone"); Logged Error "Error handling connect";
            Responded 500 "Internal Server Error"]).
  - reflexivity.
  - exists (Some "C1"), (Some "A1"). reflexivity.
Defined.

Lemma incomplete_answer_fails_witness :
  truthy (call_id connect_C1) ∧
  truthy (session_sdp (session connect_C1)) ∧
  (¬ truthy (edge_session_id answer_no_sdp) ∨ ¬ truthy (sdp_answer answer_no_sdp)) ∧
  store (run (on_connect connect_C1) [Resolved answer_no_sdp] ∅) = ∅ ∧
  final (run (on_connect connect_C1) [Resolved answer_no_sdp] ∅) = Returned tt.
Proof.
  assert (Hd : ¬ truthy (edge_session_id answer_no_sdp)
               ∨ ¬ truthy (sdp_answer answer_no_sdp))
    by (right; exact (λ f : False, f)).
  split; [exact I |]. split; [exact I |]. split; [exact Hd |].
  exact (proj2 (incomplete_answer_fails token waba_base phone_id edge_api
                  connect_C1 answer_no_sdp [] ∅ I I Hd)).
Defined.

Lemma connect_malformed_rejected_witness :
  (¬ truthy (call_id connect_no_id)
   ∨ ¬ truthy (session_sdp (session connect_no_id))) ∧
  trace (run (on_connect connect_no_id) [Resolved answer_E1] registry_C1)
  = [Responded 400 "Invalid payload"] ∧
  store (run (on_connect connect_no_id) [Resolved answer_E1] registry_C1)
  = registry_C1.
Proof.
  assert (Hbad : ¬ truthy (call_id connect_no_id)
                 ∨ ¬ truthy (session_sdp (session connect_no_id)))
    by (left; exact (λ f : False, f)).
  split; [exact Hbad |].
  destruct (connect_malformed_rejected token waba_base phone_id edge_api
              connect_no_id [Resolved answer_E1] registry_C1 boot Hbad)
    as (Ht & Hs & _).
  split; [exact Ht | exact Hs].
Defined.

Lemma terminate_without_session_witness :
  (∅ : registry) !! t_call_id terminate_C9 = None ∧
  responses (trace (run (on_terminate terminate_C9) [Rejected "timeout"] ∅))
  = [200%N] ∧
  final (run (on_terminate terminate_C9) [Rejected "timeout"] ∅) = Returned tt.
Proof.
  assert (H0 : (∅ : registry) !! t_call_id terminate_C9 = None)
    by reflexivity.
  split; [exact H0 |].
  destruct (terminate_without_session token waba_base phone_id edge_api
              terminate_C9 (Rejected "timeout") [] ∅ H0)
    as (_ & _ & Hr & Hf & _).
  split; [exact Hr | exact Hf].
Defined.

Lemma connect_success_registers_witness :
  truthy (call_id connect_C1) ∧
  truthy (session_sdp (session connect_C1)) ∧
  truthy (edge_session_id answer_E1) ∧
  truthy (sdp_answer answer_E1) ∧
  store (run (on_connect connect_C1)
           [Resolved answer_E1; Resolved no_data; Resolved no_data] ∅)
  = registry_C1 ∧
  active (run (on_connect connect_C1)
            [Resolved answer_E1; Resolved no_data; Resolved no_data] ∅)
         (Some "C1").
Proof.
  repeat (split; [exact I |]).
  destruct (connect_success_registers token waba_base phone_id edge_api
              connect_C1 answer_E1 no_data no_data [] ∅ I I I I)
    as (_ & Hs & _ & _ & Ha).
  split; [exact Hs | exact Ha].
Defined.

Lemma negotiated_reachable :
  reachable token waba_base phone_id edge_api negotiated.
Proof.
  eapply rtc_r.
  - apply rtc_once. apply (step_connect _ _ _ _ boot connect_C1).
  - unfold negotiated.
    exact (step_settle token waba_base phone_id edge_api
             (arrive (on_connect connect_C1) boot) 0 _ _
             (Resolved answer_E1) eq_refl).
Defined.

Lemma registry_entries_carry_edge_session_witness :
  reachable token waba_base phone_id edge_api negotiated ∧
  calls negotiated !! Some "C1" = Some session_E1 ∧
  truthy (edgeSessionId session_E1).
Proof.
  assert (Hlk : calls negotiated !! Some "C1" = Some session_E1)
    by (vm_compute; reflexivity).
  split; [exact negotiated_reachable |]. split; [exact Hlk |].
  exact (proj1 (registry_entries_carry_edge_session
                  token waba_base phone_id edge_api)
           negotiated (Some "C1") session_E1 negotiated_reachable Hlk).
Defined.

Lemma terminate_not_validated_witness :
  reachable token waba_base phone_id edge_api negotiated ∧
  t_call_id terminate_no_id = undefined ∧
  requests (trace (run (on_terminate terminate_no_id) [Resolved no_data]
                     (calls negotiated)))
  = [terminate_request token waba_base phone_id undefined] ∧
  url (terminate_request token waba_base phone_id undefined)
  = "https://graph.facebook.com/v20.0/15550001/calls/undefined/terminate".
Proof.
  split; [exact negotiated_reachable |]. split; [reflexivity |].
  destruct (proj2 (terminate_not_validated token waba_base phone_id edge_api)
              negotiated terminate_no_id (Resolved no_data) []
              negotiated_reachable eq_refl)
    as (Hr & Hu & _).
  split; [exact Hr | exact Hu].
Defined.

(** * Further properties of the code *)

(** ** Start-up *)



Section MoreProperties.

Variables (WABA_TOKEN WABA_BASE WABA_PHONE_ID EDGE_API : string).

#[local] Abbreviation connect :=
  (connect_handler WABA_TOKEN WABA_BASE WABA_PHONE_ID EDGE_API).
#[local] Abbreviation on_terminate :=
  (terminate_handler WABA_TOKEN WABA_BASE WABA_PHONE_ID EDGE_API).
#[local] Abbreviation negotiate_req := (negotiate_request EDGE_API).
#[local] Abbreviation hangup_req := (hangup_request EDGE_API).
#[local] Abbreviation preAccept_req :=
  (preAccept_request WABA_TOKEN WABA_BASE WABA_PHONE_ID).
#[local] Abbreviation accept_req :=
  (accept_request WABA_TOKEN WABA_BASE WABA_PHONE_ID).
#[local] Abbreviation terminate_req :=
  (terminate_request WABA_TOKEN WABA_BASE WABA_PHONE_ID).
#[local] Abbreviation reached :=
  (reachable WABA_TOKEN WABA_BASE WABA_PHONE_ID EDGE_API).

(** ** The helpers of the platform API *)

(** X3. [terminate] never throws: whatever its request settles to it
    returns, having sent that one request and touched nothing; a rejection
    leaves one warning in the log. *)
Theorem terminate_swallows callId rep rest reg :
  let o := run (terminate WABA_TOKEN WABA_BASE WABA_PHONE_ID callId) (rep :: rest) reg in
  final o = Returned tt ∧
  store o = reg ∧
  requests (trace o) = [terminate_req callId] ∧
  (Logged Warn "Failed to call terminate" ∈ trace o ↔ ∃ e, rep = Rejected e).
Proof.
  destruct rep as [d | e]; simpl; repeat split; try done.
  - intros H. in_trace H.
  - by intros [e H].
  - by exists e.
  - intros _. rewrite !elem_of_cons. auto.
Qed.

(** X4. [preAccept] and [accept] pass a rejection of their request on to
    the caller, as the exception thrown at the [await], and return
    otherwise; neither touches the registry. *)
Theorem preAccept_accept_propagate callId answer rest reg :
  (∀ e,
     final (run (preAccept WABA_TOKEN WABA_BASE WABA_PHONE_ID callId answer)
              (Rejected e :: rest) reg) = Uncaught e ∧
     final (run (accept WABA_TOKEN WABA_BASE WABA_PHONE_ID callId)
              (Rejected e :: rest) reg) = Uncaught e) ∧
  (∀ d,
     final (run (preAccept WABA_TOKEN WABA_BASE WABA_PHONE_ID callId answer)
              (Resolved d :: rest) reg) = Returned tt ∧
     final (run (accept WABA_TOKEN WABA_BASE WABA_PHONE_ID callId)
              (Resolved d :: rest) reg) = Returned tt) ∧
  (∀ replies,
     store (run (preAccept WABA_TOKEN WABA_BASE WABA_PHONE_ID callId answer)
              replies reg) = reg ∧
     requests (trace (run (preAccept WABA_TOKEN WABA_BASE WABA_PHONE_ID callId answer)
                        replies reg)) = [preAccept_req callId answer] ∧
     store (run (accept WABA_TOKEN WABA_BASE WABA_PHONE_ID callId) replies reg) = reg ∧
     requests (trace (run (accept WABA_TOKEN WABA_BASE WABA_PHONE_ID callId)
                        replies reg)) = [accept_req callId]).
Proof.
  repeat split; try done; destruct replies as [| [d | e] rest']; done.
Qed.

(** ** The two webhook handlers *)

(** X5. A connect webhook is answered exactly once, and only at the end
    of the flow: a flow still waiting on a request has sent no answer, a
    flow that has ended has sent one, 200, 400 or 500; no exception
    escapes the handler.  It sends three requests at most. *)
Theorem connect_answers_once body replies reg :
  let o := run (connect body) replies reg in
  ((∃ r, final o = Suspended r ∧ responses (trace o) = []) ∨
   (final o = Returned tt ∧
    ∃ st, responses (trace o) = [st] ∧ (st = 200 ∨ st = 400 ∨ st = 500)%N ∧
          ∃ b, last (trace o) = Some (Responded st b))) ∧
  (length (requests (trace o)) ≤ 3)%nat.
Proof.
  unfold connect_handler. destruct (malformed body); simpl.
  { split; [| lia]. right. split; [done |]. exists 400%N. eauto 10. }
  destruct replies as [| [d | e] rest]; simpl.
  - split; [| lia]. left. eauto.
  - destruct (incomplete d); simpl.
    { split; [| lia]. right. split; [done |]. exists 500%N. eauto 10. }
    destruct rest as [| [d1 | e1] rest1]; simpl.
    + split; [| lia]. left. eauto.
    + destruct rest1 as [| [d2 | e2] rest2]; simpl.
      * split; [| lia]. left. eauto.
      * split; [| lia]. right. split; [done |]. exists 200%N. eauto 10.
      * split; [| lia]. right. split; [done |]. exists 500%N. eauto 10.
    + split; [| lia]. right. split; [done |]. exists 500%N. eauto 10.
  - split; [| lia]. right. split; [done |]. exists 500%N. eauto 10.
Qed.

(** X6. A terminate webhook is answered exactly once, and only at the end
    of the flow, with 200 or 500; no exception escapes the handler.  It
    sends two requests at most. *)
Theorem terminate_answers_once body replies reg :
  let o := run (on_terminate body) replies reg in
  ((∃ r, final o = Suspended r ∧ responses (trace o) = []) ∨
   (final o = Returned tt ∧
    ∃ st, responses (trace o) = [st] ∧ (st = 200 ∨ st = 500)%N ∧
          ∃ b, last (trace o) = Some (Responded st b))) ∧
  (length (requests (trace o)) ≤ 2)%nat.
Proof.
  unfold terminate_handler. simpl.
  destruct (reg !! t_call_id body) as [cs |]; simpl.
  - destruct (truthy (edgeSessionId cs)); simpl.
    + destruct replies as [| [d | e] rest]; simpl.
      * split; [| lia]. left. eauto.
      * destruct rest as [| [d1 | e1] rest1]; simpl.
        -- split; [| lia]. left. eauto.
        -- split; [| lia]. right. split; [done |]. exists 200%N. eauto 10.
        -- split; [| lia]. right. split; [done |]. exists 200%N. eauto 10.
      * split; [| lia]. right. split; [done |]. exists 500%N. eauto 10.
    + destruct replies as [| [d | e] rest]; simpl.
      * split; [| lia]. left. eauto.
      * split; [| lia]. right. split; [done |]. exists 200%N. eauto 10.
      * split; [| lia]. right. split; [done |]. exists 200%N. eauto 10.
  - destruct replies as [| [d | e] rest]; simpl.
    + split; [| lia]. left. eauto.
    + split; [| lia]. right. split; [done |]. exists 200%N. eauto 10.
    + split; [| lia]. right. split; [done |]. exists 200%N. eauto 10.
Qed.

(** X7. When the edge rejects the negotiate request the connect flow
    stops there: the error is logged, 500 is answered, nothing is sent to
    the platform and the registry is unchanged. *)
Theorem negotiate_rejected_fails body e rest reg :
  truthy (call_id body) → truthy (session_sdp (session body)) →
  let o := run (connect body) (Rejected e :: rest) reg in
  trace o = [Logged Info "Received connect webhook";
             Posted (negotiate_req (call_id body) (session_sdp (session body)));
             Settled (Rejected e);
             Logged Error "Error handling connect";
             Responded 500 "Internal Server Error"] ∧
  store o = reg ∧
  final o = Returned tt.
Proof.
  intros Hc Ho.
  assert (Hm : malformed body = false) by (by apply malformed_iff).
  unfold connect_handler. rewrite Hm. done.
Qed.

(** X8. The connect handler never reads the registry: what it logs,
    sends and answers, and whether it is still waiting, is the same from
    any two registries. *)
Theorem connect_ignores_registry body replies reg reg' :
  trace (run (connect body) replies reg) = trace (run (connect body) replies reg') ∧
  final (run (connect body) replies reg) = final (run (connect body) replies reg').
Proof.
  split; [by rewrite !connect_run_trace |].
  unfold connect_handler. destruct (malformed body); simpl; [done |].
  destruct replies as [| [d | e] rest]; simpl; [done | | done].
  destruct (incomplete d); simpl; [done |].
  destruct rest as [| [d1 | e1] rest1]; simpl; [done | | done].
  destruct rest1 as [| [d2 | e2] rest2]; simpl; done.
Qed.

(** X9. A flow touches the registry at its own callId only: the entries
    of every other call are, after a connect flow or a terminate flow,
    what they were before. *)
Theorem other_calls_untouched key cbody tbody replies reg :
  key ≠ call_id cbody → key ≠ t_call_id tbody →
  store (run (connect cbody) replies reg) !! key = reg !! key ∧
  store (run (on_terminate tbody) replies reg) !! key = reg !! key.
Proof.
  intros Hc Ht. split.
  - rewrite connect_run_store. unfold connect_store.
    destruct (malformed cbody); [done |].
    destruct replies as [| [d | e] rest]; [done | | done].
    destruct (incomplete d); [done |]. by rewrite lookup_insert_ne.
  - unfold terminate_handler. simpl.
    destruct (reg !! t_call_id tbody) as [cs |]; simpl.
    + destruct (truthy (edgeSessionId cs)); simpl.
      * destruct replies as [| [d | e] rest]; simpl; [done | | done].
        destruct rest as [| [d1 | e1] rest1]; simpl;
          by rewrite lookup_delete_ne.
      * destruct replies as [| [d | e] rest]; simpl; done.
    + destruct replies as [| [d | e] rest]; simpl; done.
Qed.

(** X10. A connect flow that succeeds followed by a terminate flow for
    the same callId whose hangup succeeds: the hangup request carries the
    edge session id that the connect flow recorded, the answer is 200
    whatever the platform says to the terminate request, and no entry is
    left for the callId; a registry that had none for it is back to what
    it was. *)
Theorem connect_then_terminate body tbody d d1 d2 h rep reg :
  truthy (call_id body) → truthy (session_sdp (session body)) →
  truthy (edge_session_id d) → truthy (sdp_answer d) →
  t_call_id tbody = call_id body →
  let o1 := run (connect body) [Resolved d; Resolved d1; Resolved d2] reg in
  let o2 := run (on_terminate tbody) [Resolved h; rep] (store o1) in
  requests (trace o2)
  = [hangup_req (edge_session_id d); terminate_req (call_id body)] ∧
  responses (trace o2) = [200%N] ∧
  store o2 = delete (call_id body) reg ∧
  (reg !! call_id body = None → store o2 = reg).
Proof.
  intros Hc Ho He Ha Hid. simpl. rewrite connect_run_store.
  assert (Hm : malformed body = false) by (by apply malformed_iff).
  assert (Hi : incomplete d = false) by (by apply incomplete_iff).
  unfold connect_store. rewrite Hm, Hi.
  unfold terminate_handler. simpl. rewrite Hid, lookup_insert_eq. simpl.
  apply Is_true_true in He. rewrite He. simpl.
  destruct rep as [d3 | e3]; simpl; rewrite delete_insert_eq;
    repeat split; try done; by apply delete_id.
Qed.

(** X11. Two connect flows for one callId that both succeed, then a
    terminate flow for it: the only hangup request is for the edge session
    of the second connect.  The edge session of the first is never asked
    to hang up. *)
Theorem latest_connect_wins body tbody d d' w1 w2 w3 w4 h rep reg :
  truthy (call_id body) → truthy (session_sdp (session body)) →
  truthy (edge_session_id d) → truthy (sdp_answer d) →
  truthy (edge_session_id d') → truthy (sdp_answer d') →
  t_call_id tbody = call_id body →
  let o1 := run (connect body) [Resolved d; Resolved w1; Resolved w2] reg in
  let o2 := run (connect body) [Resolved d'; Resolved w3; Resolved w4] (store o1) in
  let o3 := run (on_terminate tbody) [Resolved h; rep] (store o2) in
  responses (trace o2) = [200%N] ∧
  requests (trace o3)
  = [hangup_req (edge_session_id d'); terminate_req (call_id body)] ∧
  (edge_session_id d ≠ edge_session_id d' →
   hangup_req (edge_session_id d) ∉ requests (trace o3)) ∧
  store o3 !! call_id body = None.
Proof.
  intros Hc Ho He Ha He' Ha' Hid. simpl.
  rewrite connect_run_trace, !connect_run_store.
  assert (Hm : malformed body = false) by (by apply malformed_iff).
  assert (Hi : incomplete d = false) by (by apply incomplete_iff).
  assert (Hi' : incomplete d' = false) by (by apply incomplete_iff).
  unfold connect_trace, tail_trace, connect_store. rewrite Hm, Hi, Hi'.
  split; [done |].
  unfold terminate_handler. simpl. rewrite Hid, lookup_insert_eq. simpl.
  apply Is_true_true in He'. rewrite He'. simpl.
  destruct rep as [d3 | e3]; simpl; rewrite lookup_delete_eq;
    repeat split; try done;
    intros Hne Hin; in_trace Hin; injection Hin as Heq; congruence.
Qed.

(** ** The event loop *)

Lemma seen_mono h h' x : h ⊆ h' → seen h x → seen h' x.
Proof. intros Hsub (d & Hd & Hx). exists d. split; [by apply Hsub | done]. Qed.

Lemma seen_app_l h evs x : seen h x → seen (h ++ evs) x.
Proof. apply seen_mono. intros e He. apply elem_of_app. by left. Qed.

Lemma seen_settled h d : seen (h ++ [Settled (Resolved d)]) (edge_session_id d).
Proof. exists d. split; [| done]. apply elem_of_app. right. by left. Qed.

Section Obeys.

(** What is asked of [post_ok]: it allows the requests the handlers send,
    a hangup for a known id among them, and it keeps allowing a request
    when more ids become known. *)
Variable post_ok : (jsval → Prop) → request → Prop.
Hypothesis post_mono :
  ∀ (S S' : jsval → Prop) r, (∀ x, S x → S' x) → post_ok S r → post_ok S' r.
Hypothesis post_negotiate : ∀ S c o, post_ok S (negotiate_req c o).
Hypothesis post_platform :
  ∀ S path body,
    post_ok S (waba_request WABA_TOKEN WABA_BASE WABA_PHONE_ID path body).
Hypothesis post_hangup : ∀ (S : jsval → Prop) eid, S eid → post_ok S (hangup_req eid).

Lemma obeys_connect S body : obeys post_ok S (connect body).
Proof.
  unfold connect_handler. destruct (malformed body); [repeat constructor |].
  constructor. simpl. constructor; [apply post_negotiate |].
  intros [d | e] S1 Hsub Hrep; simpl; [| repeat constructor].
  destruct (incomplete d); simpl; [repeat constructor |].
  constructor; [by apply Hrep |].
  constructor. constructor; [apply post_platform |].
  intros [d1 | e1] S2 Hsub2 Hrep2; simpl; [| repeat constructor].
  constructor. constructor; [apply post_platform |].
  intros [d2 | e2] S3 Hsub3 Hrep3; simpl; repeat constructor.
Qed.

Lemma obeys_terminate S body : obeys post_ok S (on_terminate body).
Proof.
  unfold terminate_handler. constructor. simpl. constructor.
  intros [st |] Hread; simpl.
  - destruct (truthy (edgeSessionId st)); simpl.
    + constructor; [apply post_hangup; by apply Hread |].
      intros [d | e] S1 Hsub Hrep; simpl; [| repeat constructor].
      constructor. constructor. constructor; [apply post_platform |].
      intros [d1 | e1] S2 Hsub2 Hrep2; simpl; repeat constructor.
    + constructor. constructor; [apply post_platform |].
      intros [d1 | e1] S2 Hsub2 Hrep2; simpl; repeat constructor.
  - constructor. constructor; [apply post_platform |].
    intros [d1 | e1] S2 Hsub2 Hrep2; simpl; repeat constructor.
Qed.

(** One segment of a program that obeys: the registry still holds known
    ids only, the request sent is allowed, and the continuation obeys
    once resumed. *)
Lemma advance_obeys (p : prog unit) (S : jsval → Prop) reg reg' evs w :
  obeys post_ok S p →
  (∀ key st, reg !! key = Some st → S (edgeSessionId st)) →
  advance p reg = (reg', evs, w) →
  (∀ key st, reg' !! key = Some st → S (edgeSessionId st)) ∧
  (∀ pre r post, evs = pre ++ Posted r :: post → post_ok S r) ∧
  (∀ r k, w = Some (r, k) →
     ∀ rep (S' : jsval → Prop),
       (∀ x, S x → S' x) →
       (∀ d, rep = Resolved d → S' (edge_session_id d)) →
       obeys post_ok S' (k rep)).
Proof.
  intros Hp. revert reg reg' evs w.
  induction Hp as [S a | S e | S l msg k Hk IH | S key k Hk IH
                   | S key v k Hv Hk IH | S key k Hk IH | S st body k Hk IH
                   | S r k Hr Hk IH];
    intros reg reg' evs w Hreg Hadv; simpl in Hadv.
  - injection Hadv as <- <- <-. repeat split; [done | | done].
    intros pre r post H. by destruct pre.
  - injection Hadv as <- <- <-. repeat split; [done | | done].
    intros pre r post H. by destruct pre.
  - destruct (advance k reg) as [[r1 e1] w1] eqn:E.
    injection Hadv as <- <- <-.
    destruct (IH _ _ _ _ Hreg E) as (H1 & H2 & H3).
    repeat split; [done | | done].
    intros [| x pre] r post H; [done |].
    injection H as _ H. eauto.
  - eapply IH; [| done | done]. intros st Hst. eauto.
  - eapply IH; [| done]. intros key' st'. rewrite lookup_insert.
    case_decide; [intros [= <-]; done | apply Hreg].
  - eapply IH; [| done]. intros key' st'. rewrite lookup_delete.
    case_decide; [done | apply Hreg].
  - destruct (advance k reg) as [[r1 e1] w1] eqn:E.
    injection Hadv as <- <- <-.
    destruct (IH _ _ _ _ Hreg E) as (H1 & H2 & H3).
    repeat split; [done | | done].
    intros [| x pre] r post H; [done |].
    injection H as _ H. eauto.
  - injection Hadv as <- <- <-. repeat split; [done | |].
    + intros [| x pre] r' post H.
      * by injection H as <-.
      * injection H as _ H. by destruct pre.
    + intros r' k' [= <- <-]. done.
Qed.

Lemma tracked_boot : tracked post_ok boot.
Proof.
  split; [| split].
  - intros key st H. simpl in H. by rewrite lookup_empty in H.
  - intros pre r post H. by destruct pre.
  - constructor.
Qed.

(** The history grows by a segment. *)
Lemma tracked_extend s reg' evs w old new (S : jsval → Prop) :
  tracked post_ok s →
  (∀ x, seen (history s ++ new) x → S x) →
  (∀ x, S x → seen (history s ++ new) x) →
  (∀ pre r post, new = pre ++ Posted r :: post → False) →
  Forall (λ w : suspended,
            ∀ rep (S' : jsval → Prop),
              (∀ x, seen (history s) x → S' x) →
              (∀ d, rep = Resolved d → S' (edge_session_id d)) →
              obeys post_ok S' (w.2 rep)) old →
  (∀ key st, reg' !! key = Some st → S (edgeSessionId st)) →
  (∀ pre r post, evs = pre ++ Posted r :: post → post_ok S r) →
  (∀ r k, w = Some (r, k) →
     ∀ rep (S' : jsval → Prop),
       (∀ x, S x → S' x) →
       (∀ d, rep = Resolved d → S' (edge_session_id d)) →
       obeys post_ok S' (k rep)) →
  tracked post_ok {| calls := reg'; waiting := old ++ option_list w;
                     history := (history s ++ new) ++ evs |}.
Proof.
  intros (_ & Hhist & _) HS1 HS2 Hnew Hold Hreg Hevs Hw.
  split; [| split]; simpl.
  - intros key st H. apply seen_app_l, HS2. eauto.
  - intros pre r post H.
    apply app_eq_app in H as [l [[H1 H2] | [H1 H2]]].
    + destruct l as [| x l].
      * rewrite app_nil_r in H1. simpl in H2. subst pre.
        apply (post_mono S); [done |]. by apply (Hevs [] r post).
      * injection H2 as <- ->.
        apply app_eq_app in H1 as [l' [[H1 H2] | [H1 H2]]].
        -- destruct l' as [| y l'].
           ++ rewrite app_nil_r in H1. simpl in H2. subst pre.
              exfalso. by apply (Hnew [] r l).
           ++ injection H2 as <- ->. by apply (Hhist pre r l').
        -- exfalso. by apply (Hnew l' r l).
    + subst pre. apply (post_mono S).
      * intros x Hx. apply seen_app_l. by apply HS2.
      * by apply (Hevs l r post).
  - apply Forall_app. split.
    + eapply Forall_impl; [exact Hold |]. intros wt Hwt rep S' HS' Hrep.
      apply Hwt; [| done]. intros x Hx. by apply HS', seen_app_l, seen_app_l.
    + destruct w as [[r k] |]; [| constructor].
      constructor; [| constructor]. simpl. intros rep S' HS' Hrep.
      apply (Hw r k eq_refl); [| done].
      intros x Hx. by apply HS', seen_app_l, HS2.
Qed.

Lemma tracked_step s s' :
  step WABA_TOKEN WABA_BASE WABA_PHONE_ID EDGE_API s s' →
  tracked post_ok s → tracked post_ok s'.
Proof.
  intros Hstep Hs.
  assert (Harrive : ∀ p, (∀ S, obeys post_ok S p) → tracked post_ok (arrive p s)).
  { intros p Hp. unfold arrive.
    destruct (advance p (calls s)) as [[reg' evs] w] eqn:E.
    destruct Hs as (Hreg & Hhist & Hwait).
    destruct (advance_obeys _ _ _ _ _ _ (Hp (seen (history s))) Hreg E)
      as (H1 & H2 & H3).
    pose proof (tracked_extend s reg' evs w (waiting s) [] (seen (history s))
                  (conj Hreg (conj Hhist Hwait))) as Hext.
    rewrite !app_nil_r in Hext. apply Hext; try done.
    intros pre r post H. by destruct pre. }
  destruct Hstep as [s body | s body | s i r k rep Hi].
  - apply Harrive. intros S. apply obeys_connect.
  - apply Harrive. intros S. apply obeys_terminate.
  - unfold resume.
    destruct (advance (k rep) (calls s)) as [[reg' evs] w] eqn:E.
    pose proof Hs as (Hreg & Hhist & Hwait).
    set (S := seen (history s ++ [Settled rep])).
    assert (Hk : obeys post_ok S (k rep)).
    { apply (Forall_lookup_1 _ _ _ _ Hwait Hi).
      - intros x Hx. by apply seen_app_l.
      - intros d ->. apply seen_settled. }
    assert (Hreg' : ∀ key st, calls s !! key = Some st → S (edgeSessionId st)).
    { intros key st H. apply seen_app_l. eauto. }
    destruct (advance_obeys _ _ _ _ _ _ Hk Hreg' E) as (H1 & H2 & H3).
    pose proof (tracked_extend s reg' evs w (delete i (waiting s))
                  [Settled rep] S Hs) as Hext.
    rewrite <- app_assoc in Hext. simpl in Hext. apply Hext; try done.
    + intros [| x [| y pre]] r' post H; simplify_eq.
    + by apply Forall_delete.
Qed.

Lemma reachable_tracked s : reached s → tracked post_ok s.
Proof.
  intros H. unfold reachable in H. revert s H. apply rtc_ind_r.
  - apply tracked_boot.
  - eauto using tracked_step.
Qed.

End Obeys.

(** X12. No entry of the registry is ever keyed by an absent or empty
    call id, in any state the event loop can reach. *)
Theorem registry_keys_present s key st :
  reached s → calls s !! key = Some st → truthy key.
Proof.
  intros Hs Hlk. apply reachable_ok in Hs as [Hreg _].
  by destruct (Hreg _ _ Hlk).
Qed.

(** X13. Every request the event loop ever sends is either a request to
    the edge, to [EDGE_API/webrtc/new] or [EDGE_API/webrtc/hangup] and
    without any header, or a request under [WABA_BASE/WABA_PHONE_ID] that
    carries the bearer token: the token is never sent to the edge. *)
Theorem requests_well_addressed s r :
  reached s → Posted r ∈ history s →
  to_edge EDGE_API r ∨ to_platform WABA_TOKEN WABA_BASE WABA_PHONE_ID r.
Proof.
  intros Hs Hr.
  apply (reachable_tracked
           (well_addressed WABA_TOKEN WABA_BASE WABA_PHONE_ID EDGE_API)) in Hs.
  - destruct Hs as (_ & Hhist & _).
    apply list_elem_of_split in Hr as (pre & post & Hr).
    exact (Hhist pre r post Hr).
  - by intros S S' r' _ H.
  - intros S c o. left. split; [done | by left].
  - intros S path body. right. split; [done | by exists path].
  - intros S eid _. left. split; [done | by right].
Qed.

(** X14. The event loop asks the edge to hang up only an edge session id
    that a response settled earlier had carried: no hangup request is
    made up from a webhook's payload. *)
Theorem hangup_only_known_sessions s pre eid post :
  reached s →
  history s = pre ++ Posted (hangup_req eid) :: post →
  ∃ d, Settled (Resolved d) ∈ pre ∧ edge_session_id d = eid.
Proof.
  intros Hs Hh.
  apply (reachable_tracked (hangup_known EDGE_API)) in Hs.
  - destruct Hs as (_ & Hhist & _).
    exact (Hhist pre _ post Hh eid eq_refl).
  - intros S S' r' Hsub H e He. apply Hsub. by apply H.
  - intros S c o e He. discriminate He.
  - intros S path body e He. discriminate He.
  - intros S e He e' Heq. by injection Heq as <-.
Qed.

(** X15. Every edge session id held in the registry was carried by a
    response that has settled, in any state the event loop can reach. *)
Theorem registry_ids_were_received s key st :
  reached s → calls s !! key = Some st →
  seen (history s) (edgeSessionId st).
Proof.
  intros Hs Hlk.
  apply (reachable_tracked (λ _ _, True)) in Hs; try done.
  destruct Hs as (Hreg & _). exact (Hreg key st Hlk).
Qed.

End MoreProperties.

(** ** More scenarios, run *)

Lemma pre_accepted_reachable :
  reachable token waba_base phone_id edge_api pre_accepted.
Proof.
  eapply rtc_r.
  - exact negotiated_reachable.
  - unfold pre_accepted.
    exact (step_settle token waba_base phone_id edge_api negotiated 0 _ _
             (Resolved no_data) eq_refl).
Defined.

Lemma connected_reachable :
  reachable token waba_base phone_id edge_api connected.
Proof.
  eapply rtc_r.
  - exact pre_accepted_reachable.
  - unfold connected.
    exact (step_settle token waba_base phone_id edge_api pre_accepted 0 _ _
             (Resolved no_data) eq_refl).
Defined.

Lemma hanging_up_reachable :
  reachable token waba_base phone_id edge_api hanging_up.
Proof.
  eapply rtc_r.
  - exact connected_reachable.
  - apply (step_terminate _ _ _ _ connected terminate_C1).
Defined.


Lemma negotiate_rejected_fails_witness :
  truthy (call_id connect_C1) ∧
  truthy (session_sdp (session connect_C1)) ∧
  store (run (on_connect connect_C1) [Rejected "refused"] registry_C7) = registry_C7 ∧
  final (run (on_connect connect_C1) [Rejected "refused"] registry_C7) = Returned tt.
Proof.
  split; [exact I |]. split; [exact I |].
  exact (proj2 (negotiate_rejected_fails token waba_base phone_id edge_api
                  connect_C1 "refused" [] registry_C7 I I)).
Defined.

Lemma other_calls_untouched_witness :
  Some "C7" ≠ call_id connect_C1 ∧
  Some "C7" ≠ t_call_id terminate_C1 ∧
  store (run (on_connect connect_C1)
           [Resolved answer_E1; Resolved no_data; Resolved no_data] registry_C7)
    !! Some "C7" = registry_C7 !! Some "C7" ∧
  store (run (on_terminate terminate_C1)
           [Resolved answer_E1; Resolved no_data; Resolved no_data] registry_C7)
    !! Some "C7" = registry_C7 !! Some "C7".
Proof.
  assert (H1 : Some "C7" ≠ call_id connect_C1) by discriminate.
  assert (H2 : Some "C7" ≠ t_call_id terminate_C1) by discriminate.
  split; [exact H1 |]. split; [exact H2 |].
  exact (other_calls_untouched token waba_base phone_id edge_api
           (Some "C7") connect_C1 terminate_C1
           [Resolved answer_E1; Resolved no_data; Resolved no_data]
           registry_C7 H1 H2).
Defined.

Lemma connect_then_terminate_witness :
  truthy (call_id connect_C1) ∧
  truthy (session_sdp (session connect_C1)) ∧
  truthy (edge_session_id answer_E1) ∧
  truthy (sdp_answer answer_E1) ∧
  t_call_id terminate_C1 = call_id connect_C1 ∧
  registry_C7 !! call_id connect_C1 = None ∧
  store (run (on_terminate terminate_C1) [Resolved no_data; Rejected "late"]
           (store (run (on_connect connect_C1)
                     [Resolved answer_E1; Resolved no_data; Resolved no_data]
                     registry_C7)))
  = registry_C7.
Proof.
  assert (Hn : registry_C7 !! call_id connect_C1 = None)
    by (vm_compute; reflexivity).
  repeat (split; [first [exact I | reflexivity | exact Hn] |]).
  destruct (connect_then_terminate token waba_base phone_id edge_api
              connect_C1 terminate_C1 answer_E1 no_data no_data no_data
              (Rejected "late") registry_C7 I I I I eq_refl)
    as (_ & _ & _ & Hback).
  exact (Hback Hn).
Defined.

Lemma latest_connect_wins_witness :
  truthy (call_id connect_C1) ∧
  truthy (session_sdp (session connect_C1)) ∧
  truthy (edge_session_id answer_E1) ∧ truthy (sdp_answer answer_E1) ∧
  truthy (edge_session_id answer_E2) ∧ truthy (sdp_answer answer_E2) ∧
  t_call_id terminate_C1 = call_id connect_C1 ∧
  requests
    (trace (run (on_terminate terminate_C1) [Resolved no_data; Resolved no_data]
              (store (run (on_connect connect_C1)
                        [Resolved answer_E2; Resolved no_data; Resolved no_data]
                        (store (run (on_connect connect_C1)
                                  [Resolved answer_E1; Resolved no_data;
                                   Resolved no_data] ∅))))))
  = [hangup_request edge_api (Some "E2");
     terminate_request token waba_base phone_id (Some "C1")].
Proof.
  repeat (split; [first [exact I | reflexivity] |]).
  destruct (latest_connect_wins token waba_base phone_id edge_api
              connect_C1 terminate_C1 answer_E1 answer_E2
              no_data no_data no_data no_data no_data (Resolved no_data) ∅
              I I I I I I eq_refl)
    as (_ & Hreq & _).
  exact Hreq.
Defined.

Lemma registry_keys_present_witness :
  reachable token waba_base phone_id edge_api hanging_up ∧
  calls hanging_up !! Some "C1" = Some session_E1 ∧
  truthy (Some "C1").
Proof.
  assert (Hlk : calls hanging_up !! Some "C1" = Some session_E1)
    by (vm_compute; reflexivity).
  split; [exact hanging_up_reachable |]. split; [exact Hlk |].
  exact (registry_keys_present token waba_base phone_id edge_api
           hanging_up (Some "C1") session_E1 hanging_up_reachable Hlk).
Defined.

Lemma requests_well_addressed_witness :
  reachable token waba_base phone_id edge_api hanging_up ∧
  Posted (hangup_request edge_api (Some "E1")) ∈ history hanging_up ∧
  (to_edge edge_api (hangup_request edge_api (Some "E1"))
   ∨ to_platform token waba_base phone_id (hangup_request edge_api (Some "E1"))).
Proof.
  assert (Hin : Posted (hangup_request edge_api (Some "E1")) ∈ history hanging_up).
  { apply list_elem_of_lookup. exists 11%nat. vm_compute. reflexivity. }
  split; [exact hanging_up_reachable |]. split; [exact Hin |].
  exact (requests_well_addressed token waba_base phone_id edge_api
           hanging_up _ hanging_up_reachable Hin).
Defined.

Lemma hangup_only_known_sessions_witness :
  reachable token waba_base phone_id edge_api hanging_up ∧
  history hanging_up
  = history connected ++ [Logged Info "Received terminate webhook"]
    ++ Posted (hangup_request edge_api (Some "E1")) :: [] ∧
  ∃ d, Settled (Resolved d)
         ∈ history connected ++ [Logged Info "Received terminate webhook"]
       ∧ edge_session_id d = Some "E1".
Proof.
  assert (Hh : history hanging_up
               = (history connected ++ [Logged Info "Received terminate webhook"])
                 ++ Posted (hangup_request edge_api (Some "E1")) :: [])
    by (vm_compute; reflexivity).
  split; [exact hanging_up_reachable |].
  split; [rewrite Hh; by rewrite <- app_assoc |].
  exact (hangup_only_known_sessions token waba_base phone_id edge_api
           hanging_up _ (Some "E1") [] hanging_up_reachable Hh).
Defined.

Lemma registry_ids_were_received_witness :
  reachable token waba_base phone_id edge_api hanging_up ∧
  calls hanging_up !! Some "C1" = Some session_E1 ∧
  ∃ d, Settled (Resolved d) ∈ history hanging_up
       ∧ edge_session_id d = edgeSessionId session_E1.
Proof.
  assert (Hlk : calls hanging_up !! Some "C1" = Some session_E1)
    by (vm_compute; reflexivity).
  split; [exact hanging_up_reachable |]. split; [exact Hlk |].
  exact (registry_ids_were_received token waba_base phone_id edge_api
           hanging_up (Some "C1") session_E1 hanging_up_reachable Hlk).
Defined.
